(** * The log-buffering facade of soa-rs/fit (package [logger])

    A shallow embedding of [internal/config/logger]: the buffered channel
    [queue], the atomic flag [queueClosed], the public [Log*] functions,
    [MarkInitialized] and the drain goroutine [processQueue].

    Goroutines are modelled as threads with a program counter that names the
    source line about to run; one step of one thread is one shared-memory
    access of the Go code (an atomic load or store, a channel operation, a
    write to zerolog).  A schedule is the list of thread indices that take
    the next step, so every interleaving of the goroutines is a schedule. *)

From stdpp Require Import base list strings.
From Stdlib Require Import Lia.

Local Open Scope string_scope.
Local Open Scope list_scope.

(** ** Data *)

(** [type logOperation struct { level string; message string }] *)
Record logOperation := LogOperation { level : string; message : string }.

(** A buffered Go channel: its buffer (head is the next value received),
    its capacity and whether [close] has been called on it. *)
Record chan := Chan { buf : list logOperation; cap : nat; closed : bool }.

(** [make(chan logOperation, n)] *)
Definition make_chan (n : nat) : chan := Chan [] n false.

(** The zerolog levels the dispatcher [sublogWrapper] selects. *)
Inductive Level :=
  | TraceLevel | DebugLevel | InfoLevel | WarnLevel
  | ErrorLevel | FatalLevel | PanicLevel.

(** A record handed to zerolog: the event level and the message. *)
Definition entry : Type := Level * string.

(** The [switch level] of [sublogWrapper], in the order of its cases. *)
Definition dispatch (lvl : string) : Level :=
  if String.eqb lvl "debug" then DebugLevel
  else if String.eqb lvl "info" then InfoLevel
  else if String.eqb lvl "warn" then WarnLevel
  else if String.eqb lvl "error" then ErrorLevel
  else if String.eqb lvl "fatal" then FatalLevel
  else if String.eqb lvl "panic" then PanicLevel
  else if String.eqb lvl "trace" then TraceLevel
  else InfoLevel.

Definition entry_of (op : logOperation) : entry :=
  (dispatch (level op), message op).

(** Why a Go program stopped with a run-time panic. *)
Inductive crash :=
  | SendOnClosedChannel
  | CloseOfClosedChannel
  | ZerologPanic (msg : string).

(** The process: running, ended by [os.Exit] (zerolog's [Fatal]), or
    brought down by a panic that nothing in this package recovers. *)
Inductive status :=
  | Running
  | Exited (code : nat)
  | Panicked (c : crash).

(** The seven level strings the public functions pass to [logWrapper]. *)
Definition recognized (lvl : string) : bool :=
  existsb (String.eqb lvl)
    ["trace"; "debug"; "info"; "warn"; "error"; "fatal"; "panic"].

(** A level whose zerolog event neither exits nor panics. *)
Definition harmless (op : logOperation) : bool :=
  match dispatch (level op) with
  | FatalLevel | PanicLevel => false
  | _ => true
  end.

(** Interleavings of two sequences that keep the order inside each. *)
Inductive Merge {A : Type} : list A -> list A -> list A -> Prop :=
  | Merge_nil : Merge [] [] []
  | Merge_l x xs ys zs : Merge xs ys zs -> Merge (x :: xs) ys (x :: zs)
  | Merge_r y xs ys zs : Merge xs ys zs -> Merge xs (y :: ys) (y :: zs).

(** Go's [interface{}] arguments and [fmt.Sprintf] are taken as given: a
    formatter for argument values of type [value]. *)
Class Formatter (value : Type) := Sprintf : string -> list value -> string.

Section Logger.

Context {value : Type} {fmt : Formatter value}.

(** A call of the public interface, as a caller goroutine issues it. *)
Inductive call :=
  | CLog (lvl : string) (format : string) (args : list value)
  | CMarkInitialized.

Definition LogTrace (format : string) (args : list value) := CLog "trace" format args.
Definition LogDebug (format : string) (args : list value) := CLog "debug" format args.
Definition LogInfo (format : string) (args : list value) := CLog "info" format args.
Definition LogWarn (format : string) (args : list value) := CLog "warn" format args.
Definition LogError (format : string) (args : list value) := CLog "error" format args.
Definition LogFatal (format : string) (args : list value) := CLog "fatal" format args.
Definition LogPanic (format : string) (args : list value) := CLog "panic" format args.

(** Program points.  [Lw*] are inside [logWrapper], [Mi*] inside
    [MarkInitialized], [Pq*] inside [processQueue]. *)
Inductive pc :=
  | Idle                                          (* between two calls *)
  | LwFormat (lvl format : string) (args : list value)
                                                  (* message := fmt.Sprintf(format, args...) *)
  | LwLoad (lvl msg : string)                     (* if !queueClosed.Load() *)
  | LwSelect (lvl msg : string)                   (* select { case queue <- ...: default: } *)
  | LwSub (lvl msg : string)                      (* sublogWrapper(level, message) *)
  | MiLoad                                        (* if !queueClosed.Load() *)
  | MiStore                                       (* queueClosed.Store(true) *)
  | MiClose                                       (* close(queue) *)
  | MiGo                                          (* go processQueue() *)
  | MiLog                                         (* LogInfo("Logger initialized") *)
  | PqRecv                                        (* for op := range queue *)
  | PqSub (op : logOperation).                    (* sublogWrapper(op.level, op.message) *)

(** A goroutine: where it is, and the calls it will still issue. *)
Record thread := Thread { at_pc : pc; rest : list call }.

(** The package state: the two globals, what zerolog has been handed so
    far, the goroutines, and the process status. *)
Record state := State {
  queue : chan;
  queueClosed : bool;
  sink : list entry;
  procs : list thread;
  stat : status
}.

Definition set_thread (i : nat) (t : thread) (s : state) : state :=
  State (queue s) (queueClosed s) (sink s) (<[i := t]> (procs s)) (stat s).

Definition set_buf (b : list logOperation) (s : state) : state :=
  State (Chan b (cap (queue s)) (closed (queue s)))
        (queueClosed s) (sink s) (procs s) (stat s).

Definition set_closed (s : state) : state :=
  State (Chan (buf (queue s)) (cap (queue s)) true)
        (queueClosed s) (sink s) (procs s) (stat s).

Definition set_queueClosed (b : bool) (s : state) : state :=
  State (queue s) b (sink s) (procs s) (stat s).

Definition set_stat (st : status) (s : state) : state :=
  State (queue s) (queueClosed s) (sink s) (procs s) st.

Definition spawn (t : thread) (s : state) : state :=
  State (queue s) (queueClosed s) (sink s) (procs s ++ [t]) (stat s).

(** [sublogWrapper]: pick the zerolog event for the level string and send
    the message.  zerolog's [Fatal] event calls [os.Exit(1)] after the
    write and its [Panic] event calls [panic(msg)]. *)
Definition sublogWrapper (lvl msg : string) (s : state) : state :=
  let s' := State (queue s) (queueClosed s) (sink s ++ [(dispatch lvl, msg)])
                  (procs s) (stat s) in
  match dispatch lvl with
  | FatalLevel => set_stat (Exited 1) s'
  | PanicLevel => set_stat (Panicked (ZerologPanic msg)) s'
  | _ => s'
  end.

(** What a step does, as seen from outside. *)
Inductive event :=
  | EvCall (c : call)
  | EvFormat (msg : string)
  | EvLoad (b : bool)
  | EvEnqueue (op : logOperation)
  | EvDrop (op : logOperation)
  | EvDirect (op : logOperation)
  | EvStore
  | EvClose
  | EvGo
  | EvRecv (op : logOperation)
  | EvDrained (op : logOperation)
  | EvReturn
  | EvPanic (c : crash).

Definition entry_pc (c : call) : pc :=
  match c with
  | CLog lvl format args => LwFormat lvl format args
  | CMarkInitialized => MiLoad
  end.

(** One step of goroutine [i].  [None]: the goroutine does not exist, has
    nothing left to do, is blocked on the empty open channel, or the
    process is no longer running. *)
Definition step (s : state) (i : nat) : option (event * state) :=
  match stat s with
  | Running =>
    match procs s !! i with
    | None => None
    | Some t =>
      let goto p s := set_thread i (Thread p (rest t)) s in
      match at_pc t with
      | Idle =>
          match rest t with
          | [] => None
          | c :: cs => Some (EvCall c, set_thread i (Thread (entry_pc c) cs) s)
          end
      | LwFormat lvl format args =>
          let msg := Sprintf format args in
          Some (EvFormat msg, goto (LwLoad lvl msg) s)
      | LwLoad lvl msg =>
          if queueClosed s
          then Some (EvLoad true, goto (LwSub lvl msg) s)
          else Some (EvLoad false, goto (LwSelect lvl msg) s)
      | LwSelect lvl msg =>
          let op := LogOperation lvl msg in
          if closed (queue s)
          then Some (EvPanic SendOnClosedChannel,
                     set_stat (Panicked SendOnClosedChannel) s)
          else if Nat.ltb (length (buf (queue s))) (cap (queue s))
          then Some (EvEnqueue op, goto Idle (set_buf (buf (queue s) ++ [op]) s))
          else Some (EvDrop op, goto Idle s)
      | LwSub lvl msg =>
          Some (EvDirect (LogOperation lvl msg), sublogWrapper lvl msg (goto Idle s))
      | MiLoad =>
          if queueClosed s
          then Some (EvLoad true, goto MiLog s)
          else Some (EvLoad false, goto MiStore s)
      | MiStore => Some (EvStore, goto MiClose (set_queueClosed true s))
      | MiClose =>
          if closed (queue s)
          then Some (EvPanic CloseOfClosedChannel,
                     set_stat (Panicked CloseOfClosedChannel) s)
          else Some (EvClose, goto MiGo (set_closed s))
      | MiGo => Some (EvGo, spawn (Thread PqRecv []) (goto MiLog s))
      | MiLog =>
          Some (EvCall (LogInfo "Logger initialized" []),
                goto (LwFormat "info" "Logger initialized" []) s)
      | PqRecv =>
          match buf (queue s) with
          | op :: b => Some (EvRecv op, goto (PqSub op) (set_buf b s))
          | [] => if closed (queue s) then Some (EvReturn, goto Idle s) else None
          end
      | PqSub op =>
          Some (EvDrained op, sublogWrapper (level op) (message op) (goto PqRecv s))
      end
    end
  | _ => None
  end.

(** Run a schedule: each index lets that goroutine take one step; an index
    that cannot step is skipped.  The result is the trace and final state. *)
Fixpoint exec (sched : list nat) (s : state) : list (nat * event) * state :=
  match sched with
  | [] => ([], s)
  | i :: sched' =>
      match step s i with
      | Some (e, s') => let (tr, s'') := exec sched' s' in ((i, e) :: tr, s'')
      | None => exec sched' s
      end
  end.

Definition run (sched : list nat) (s : state) : state := snd (exec sched s).
Definition trace (sched : list nat) (s : state) : list (nat * event) := fst (exec sched s).

(** No goroutine can take a step. *)
Definition quiescent (s : state) : Prop := forall i, step s i = None.

(** A caller goroutine that will issue the calls [prog] one after the other. *)
Definition caller (prog : list call) : thread := Thread Idle prog.

(** The state after package initialisation with a queue of capacity [c]. *)
Definition boot (c : nat) (ps : list thread) : state :=
  State (make_chan c) false [] ps Running.

(** [func init() { queue = make(chan logOperation, 100) }] *)
Definition init (ps : list thread) : state := boot 100 ps.

(** ** A sequential caller

    The records a single caller goroutine delivers when it issues its calls
    one after the other: those offered to the queue before its first
    [MarkInitialized], and those written directly from then on. *)

(** The record of the [LogInfo("Logger initialized")] in [MarkInitialized]. *)
Definition init_op : logOperation :=
  LogOperation "info" (Sprintf "Logger initialized" []).

(** The record a call writes when it takes the direct path. *)
Definition direct_op (c : call) : logOperation :=
  match c with
  | CLog lvl format args => LogOperation lvl (Sprintf format args)
  | CMarkInitialized => init_op
  end.

(** The records of the calls before the first [MarkInitialized]. *)
Fixpoint offered (cs : list call) : list logOperation :=
  match cs with
  | CLog lvl format args :: cs' => LogOperation lvl (Sprintf format args) :: offered cs'
  | _ => []
  end.

(** The direct-path records: those of the first [MarkInitialized] and of
    every call after it. *)
Fixpoint direct_from (cs : list call) : list logOperation :=
  match cs with
  | CLog _ _ _ :: cs' => direct_from cs'
  | CMarkInitialized :: _ => map direct_op cs
  | [] => []
  end.

Definition is_mark (c : call) : bool :=
  match c with CMarkInitialized => true | CLog _ _ _ => false end.

Definition initializes (cs : list call) : bool := existsb is_mark cs.

(** The record the call in progress at [p] is about to deliver. *)
Definition pending (p : pc) : list logOperation :=
  match p with
  | LwFormat lvl format args => [LogOperation lvl (Sprintf format args)]
  | LwLoad lvl msg | LwSelect lvl msg | LwSub lvl msg => [LogOperation lvl msg]
  | MiLoad | MiStore | MiClose | MiGo | MiLog => [init_op]
  | Idle | PqRecv | PqSub _ => []
  end.

(** The record the drainer has received and not yet written. *)
Definition in_flight (p : pc) : list logOperation :=
  match p with PqSub op => [op] | _ => [] end.

Definition buffering_pc (p : pc) : bool :=
  match p with
  | Idle | LwFormat _ _ _ | LwLoad _ _ | LwSelect _ _ | MiLoad | MiStore => true
  | _ => false
  end.

Definition direct_pc (p : pc) : bool :=
  match p with
  | Idle | LwFormat _ _ _ | LwLoad _ _ | LwSub _ _ | MiLoad | MiLog => true
  | _ => false
  end.

Definition drain_pc (p : pc) : bool :=
  match p with Idle | PqRecv | PqSub _ => true | _ => false end.

Definition to_offer (p : pc) (r : list call) : list logOperation :=
  match p with MiLoad | MiStore => [] | _ => pending p ++ offered r end.

Definition to_write (p : pc) (r : list call) : list logOperation :=
  match p with
  | MiLoad | MiStore => init_op :: map direct_op r
  | _ => direct_from r
  end.

Definition will_init (p : pc) (r : list call) : bool :=
  match p with MiLoad | MiStore => true | _ => initializes r end.

(** The states a lone caller and the drainer it starts can be in, for a
    queue of capacity [c]: [K] is the backlog that is kept and [D] the
    direct-path records, both in program order. *)
Inductive SeqInv (c : nat) (K D : list logOperation) : state -> Prop :=
  | Inv_buffering b p r :
      buffering_pc p = true -> will_init p r = true -> length b <= c ->
      K = firstn c (b ++ to_offer p r) -> D = to_write p r ->
      SeqInv c K D (State (Chan b c false) false [] [Thread p r] Running)
  | Inv_closing r :
      D = init_op :: map direct_op r ->
      SeqInv c K D (State (Chan K c false) true [] [Thread MiClose r] Running)
  | Inv_spawning r :
      D = init_op :: map direct_op r ->
      SeqInv c K D (State (Chan K c true) true [] [Thread MiGo r] Running)
  | Inv_draining b snk p r q dw xw :
      direct_pc p = true -> drain_pc q = true ->
      Merge (map entry_of dw) (map entry_of xw) snk ->
      K = dw ++ in_flight q ++ b ->
      D = xw ++ pending p ++ map direct_op r ->
      (q = Idle -> b = []) ->
      SeqInv c K D
        (State (Chan b c true) true snk [Thread p r; Thread q []] Running).

(** ** Measures and counters *)

Definition call_weight (c : call) : nat :=
  match c with CLog _ _ _ => 6 | CMarkInitialized => 12 end.

Definition pc_weight (p : pc) : nat :=
  match p with
  | Idle => 0
  | LwFormat _ _ _ => 5 | LwLoad _ _ => 4 | LwSelect _ _ => 3 | LwSub _ _ => 1
  | MiLoad => 11 | MiStore => 10 | MiClose => 9 | MiGo => 8 | MiLog => 6
  | PqRecv => 1 | PqSub _ => 2
  end.

Definition thread_weight (t : thread) : nat :=
  pc_weight (at_pc t) + sum_list_with call_weight (rest t).

(** An upper bound on the steps a state can still take. *)
Definition measure (s : state) : nat :=
  sum_list_with thread_weight (procs s) + 2 * length (buf (queue s)).

Definition is_close (e : event) : bool :=
  match e with EvClose => true | _ => false end.

Definition is_go (e : event) : bool :=
  match e with EvGo => true | _ => false end.

(** The outcome events of a [Log*] call. *)
Definition is_outcome (e : event) : bool :=
  match e with EvEnqueue _ | EvDrop _ | EvDirect _ => true | _ => false end.

Definition count (f : event -> bool) (tr : list (nat * event)) : nat :=
  length (filter (fun ie => f (snd ie) = true) tr).

(** The events of goroutine [i] in a trace. *)
Definition events_of (i : nat) (tr : list (nat * event)) : list event :=
  map snd (filter (fun ie => fst ie = i) tr).

(** Whether the queue's buffer has a free slot. *)
Definition has_room (s : state) : bool :=
  Nat.ltb (length (buf (queue s))) (cap (queue s)).

(** [quiescent], as a check over the goroutines that exist. *)
Definition quiescentb (s : state) : bool :=
  forallb (fun i => match step s i with None => true | Some _ => false end)
          (seq 0 (length (procs s))).

Definition closed_count (s : state) : nat :=
  if closed (queue s) then 1 else 0.

(** The records sent on the queue and the records written by the drainer,
    each in trace order; and everything handed to zerolog. *)
Definition enqueued (tr : list (nat * event)) : list logOperation :=
  flat_map (fun ie => match snd ie with EvEnqueue op => [op] | _ => [] end) tr.

Definition drained (tr : list (nat * event)) : list logOperation :=
  flat_map (fun ie => match snd ie with EvDrained op => [op] | _ => [] end) tr.

Definition directs (tr : list (nat * event)) : list logOperation :=
  flat_map (fun ie => match snd ie with EvDirect op => [op] | _ => [] end) tr.

Definition written (tr : list (nat * event)) : list entry :=
  flat_map (fun ie => match snd ie with
                      | EvDrained op | EvDirect op => [entry_of op]
                      | _ => []
                      end) tr.

(** Goroutines that are, or are about to start, the drainer. *)
Definition drainer_pc (p : pc) : nat :=
  match p with MiGo | PqRecv | PqSub _ => 1 | _ => 0 end.

Definition drainer_weight (t : thread) : nat := drainer_pc (at_pc t).

Definition in_flight_all (s : state) : list logOperation :=
  flat_map (fun t => in_flight (at_pc t)) (procs s).

(** What relates a trace to the state it led to: at most one goroutine is
    (or is about to start) the drainer, and the records sent on the queue
    are those the drainer has written, then the one it holds, then the
    buffer. *)
Definition Fifo (tr : list (nat * event)) (s : state) : Prop :=
  sum_list_with drainer_weight (procs s) <= closed_count s /\
  enqueued tr = drained tr ++ in_flight_all s ++ buf (queue s).

End Logger.

(** ** Concrete programs used by the closed examples *)

(** On a format without verbs and without arguments [fmt.Sprintf] returns
    the format itself; the examples below only use such calls. *)
#[export] Instance plain : Formatter unit := fun format _ => format.

(** A caller logs one record while another goroutine initialises. *)
Definition racing_pool : list (@thread unit) :=
  [caller [LogInfo "a" []]; caller [CMarkInitialized]].

Definition racing_warn_pool : list (@thread unit) :=
  [caller [LogWarn "w" []]; caller [CMarkInitialized]].

(** The caller has read [queueClosed] (false) when [MarkInitialized]
    stores and closes; then the caller reaches its [select]. *)
Definition racing_schedule : list nat := [0; 0; 0; 1; 1; 1; 1; 0].

(** One record before the transition, one after it, from the same caller. *)
Definition early_late : list (@thread unit) :=
  [caller [LogInfo "early" []; CMarkInitialized; LogInfo "late" []]].

(** The caller runs to its end before the drainer is scheduled. *)
Definition caller_first : list nat := repeat 0 40 ++ repeat 1 10.

(** After [n] calls and the [go] statement of [MarkInitialized], the
    drainer runs to its end before the caller goes on. *)
Definition drainer_first (n : nat) : list nat :=
  repeat 0 (4 * n + 5) ++ repeat 1 (2 * n + 1) ++ repeat 0 4.

Definition twice_initialized : list (@thread unit) :=
  [caller [CMarkInitialized; CMarkInitialized]].

Definition fatal_then_info : list (@thread unit) :=
  [caller [LogFatal "x" []; LogInfo "y" []; CMarkInitialized]].

(** 101 calls before initialisation, the first one at the fatal level. *)
Definition fatal_overflow : list (@thread unit) :=
  [caller (LogFatal "x" [] :: repeat (LogInfo "y" []) 100 ++ [CMarkInitialized])].

Definition overflow_schedule : list nat := repeat 0 500 ++ repeat 1 10.

Definition fatal_before_init : list (@thread unit) :=
  [caller [LogFatal "boom" []]].

(** [LogFatal] on a full backlog, then initialisation. *)
Definition fatal_on_full : list (@thread unit) :=
  [caller (repeat (LogInfo "y" []) 100 ++ [LogFatal "boom" []; CMarkInitialized])].

Definition full_schedule : list nat := repeat 0 500 ++ repeat 1 250.

(** The scenario of capacity 2 with three records. *)
Definition three_calls : list (@call unit) :=
  [LogInfo "a" []; LogInfo "b" []; LogInfo "c" []].

Definition two_calls : list (@call unit) :=
  [LogInfo "a" []; LogWarn "b" []].

(** * Properties *)

Section Facts.

Context {value : Type} {fmt : Formatter value}.
Implicit Types (s : @state value) (i : nat) (e : @event value) (sched : list nat).

(** ** The dispatcher *)

Lemma dispatch_unrecognized lvl : recognized lvl = false -> dispatch lvl = InfoLevel.
Proof.
  unfold recognized, dispatch; simpl; intros Hr.
  repeat (apply orb_false_elim in Hr; destruct Hr as [? Hr]).
  repeat match goal with H : String.eqb _ _ = false |- _ => rewrite H; clear H end.
  reflexivity.
Qed.

Lemma sublogWrapper_harmless lvl msg s :
  harmless (LogOperation lvl msg) = true ->
  sublogWrapper lvl msg s =
    State (queue s) (queueClosed s) (sink s ++ [(dispatch lvl, msg)]) (procs s) (stat s).
Proof.
  unfold harmless, sublogWrapper; simpl; destruct (dispatch lvl); congruence.
Qed.

Lemma sublogWrapper_queue lvl msg s : queue (sublogWrapper lvl msg s) = queue s.
Proof. unfold sublogWrapper; destruct (dispatch lvl); reflexivity. Qed.

Lemma sublogWrapper_queueClosed lvl msg s :
  queueClosed (sublogWrapper lvl msg s) = queueClosed s.
Proof. unfold sublogWrapper; destruct (dispatch lvl); reflexivity. Qed.

Lemma sublogWrapper_procs lvl msg s : procs (sublogWrapper lvl msg s) = procs s.
Proof. unfold sublogWrapper; destruct (dispatch lvl); reflexivity. Qed.

Lemma sublogWrapper_sink lvl msg s :
  sink (sublogWrapper lvl msg s) = sink s ++ [(dispatch lvl, msg)].
Proof. unfold sublogWrapper; destruct (dispatch lvl); reflexivity. Qed.

(** ** Schedules *)

Lemma step_running s i e s' : step s i = Some (e, s') -> stat s = Running.
Proof. unfold step; destruct (stat s); congruence. Qed.

Lemma step_out_of_range s i : length (procs s) <= i -> step s i = None.
Proof.
  intros Hi; unfold step; destruct (stat s); try reflexivity.
  rewrite (lookup_ge_None_2 (procs s) i Hi); reflexivity.
Qed.

Lemma stopped_quiescent s : stat s <> Running -> quiescent s.
Proof. intros Hs i; unfold step; destruct (stat s); congruence. Qed.

Lemma exec_cons i sched s :
  exec (i :: sched) s =
    match step s i with
    | Some (e, s') => ((i, e) :: fst (exec sched s'), snd (exec sched s'))
    | None => exec sched s
    end.
Proof.
  simpl; destruct (step s i) as [[e s']|]; [destruct (exec sched s')|]; reflexivity.
Qed.

Lemma run_cons i sched s :
  run (i :: sched) s =
    match step s i with Some (_, s') => run sched s' | None => run sched s end.
Proof. unfold run; rewrite exec_cons; destruct (step s i) as [[e s']|]; reflexivity. Qed.

Lemma trace_cons i sched s :
  trace (i :: sched) s =
    match step s i with
    | Some (e, s') => (i, e) :: trace sched s'
    | None => trace sched s
    end.
Proof. unfold trace; rewrite exec_cons; destruct (step s i) as [[e s']|]; reflexivity. Qed.

Lemma exec_app sched1 sched2 s :
  exec (sched1 ++ sched2) s =
    (fst (exec sched1 s) ++ fst (exec sched2 (snd (exec sched1 s))),
     snd (exec sched2 (snd (exec sched1 s)))).
Proof.
  revert s; induction sched1 as [|i sched1 IH]; intros s.
  - simpl; destruct (exec sched2 s); reflexivity.
  - rewrite <- app_comm_cons, !exec_cons.
    destruct (step s i) as [[e s']|]; simpl; rewrite IH; reflexivity.
Qed.

Lemma run_app sched1 sched2 s : run (sched1 ++ sched2) s = run sched2 (run sched1 s).
Proof. unfold run; rewrite exec_app; reflexivity. Qed.

Lemma trace_app sched1 sched2 s :
  trace (sched1 ++ sched2) s = trace sched1 s ++ trace sched2 (run sched1 s).
Proof. unfold trace, run; rewrite exec_app; reflexivity. Qed.

(** A property kept by every step is kept by every schedule. *)
Lemma run_invariant (P : state -> Prop) :
  (forall s i e s', P s -> step s i = Some (e, s') -> P s') ->
  forall sched s, P s -> P (run sched s).
Proof.
  intros Hstep sched; induction sched as [|i sched IH]; intros s Hs; [exact Hs|].
  rewrite run_cons; destruct (step s i) as [[e s']|] eqn:E.
  - apply IH; eauto.
  - apply IH; exact Hs.
Qed.

(** ** What a single step can change *)

Ltac step_cases H :=
  unfold step in H;
  repeat match type of H with
         | context [match ?x with _ => _ end] => destruct x eqn:?
         end;
  simplify_eq.

Lemma step_facts s i e s' :
  step s i = Some (e, s') ->
  (queueClosed s = true -> queueClosed s' = true) /\
  (closed (queue s) = true -> closed (queue s') = true) /\
  cap (queue s') = cap (queue s) /\
  closed_count s + (if is_close e then 1 else 0) = closed_count s' /\
  length (procs s) + (if is_go e then 1 else 0) = length (procs s').
Proof.
  unfold closed_count; intros Hstep; step_cases Hstep; simpl;
    rewrite ?sublogWrapper_queue, ?sublogWrapper_queueClosed, ?sublogWrapper_procs;
    simpl; rewrite ?length_app, ?length_insert; simpl;
    repeat match goal with H : closed _ = _ |- _ => rewrite H end;
    repeat split; try congruence; try lia.
Qed.


Lemma count_cons f i e tr :
  count f ((i, e) :: tr) = (if f e then 1 else 0) + count f tr.
Proof.
  unfold count; rewrite filter_cons; simpl.
  destruct (f e) eqn:Hf; [rewrite decide_True by done | rewrite decide_False by done];
    reflexivity.
Qed.

Lemma close_count sched s :
  closed_count s + count is_close (trace sched s) = closed_count (run sched s).
Proof.
  revert s; induction sched as [|i sched IH]; intros s; [unfold run, trace, count; simpl; lia|].
  rewrite run_cons, trace_cons; destruct (step s i) as [[e s']|] eqn:E; [|apply IH].
  destruct (step_facts _ _ _ _ E) as (_ & _ & _ & H4 & _).
  rewrite count_cons; specialize (IH s'); lia.
Qed.

Lemma go_count sched s :
  length (procs s) + count is_go (trace sched s) = length (procs (run sched s)).
Proof.
  revert s; induction sched as [|i sched IH]; intros s; [unfold run, trace, count; simpl; lia|].
  rewrite run_cons, trace_cons; destruct (step s i) as [[e s']|] eqn:E; [|apply IH].
  destruct (step_facts _ _ _ _ E) as (_ & _ & _ & _ & H5).
  rewrite count_cons; specialize (IH s'); lia.
Qed.


(** ** Termination: every step of a running process lowers [measure] *)

Lemma sum_list_with_insert (f : @thread value -> nat) l i t t' :
  l !! i = Some t ->
  sum_list_with f (<[i := t']> l) + f t = sum_list_with f l + f t'.
Proof.
  revert i; induction l as [|x l IH]; intros [|i] Hl; simpl in *; simplify_eq; try lia.
  specialize (IH i Hl); lia.
Qed.

Lemma weight_insert (l : list (@thread value)) i t t' :
  l !! i = Some t ->
  sum_list_with thread_weight (<[i := t']> l)
    + (pc_weight (at_pc t) + sum_list_with call_weight (rest t)) =
  sum_list_with thread_weight l
    + (pc_weight (at_pc t') + sum_list_with call_weight (rest t')).
Proof. apply (sum_list_with_insert thread_weight). Qed.

Lemma sublogWrapper_measure lvl msg s : measure (sublogWrapper lvl msg s) = measure s.
Proof.
  unfold measure; rewrite sublogWrapper_procs, sublogWrapper_queue; reflexivity.
Qed.

Lemma step_measure s i e s' :
  step s i = Some (e, s') -> stat s' = Running -> measure s' < measure s.
Proof.
  intros Hstep; step_cases Hstep; rewrite ?sublogWrapper_measure;
    unfold measure; simpl; intros Hr; try discriminate;
    rewrite ?sum_list_with_app; simpl;
    match goal with
    | Hl : procs s !! i = Some ?t |- context [<[i := ?t']> (procs s)] =>
        pose proof (weight_insert _ _ _ t' Hl) as Hsum;
        cbn [at_pc rest] in Hsum
    end;
    repeat match goal with
           | H : at_pc _ = _ |- _ => rewrite H in Hsum
           | H : rest _ = _ |- _ => rewrite H in Hsum
           | H : buf _ = _ |- _ => rewrite H
           end;
    cbn [pc_weight sum_list_with call_weight thread_weight at_pc rest] in *;
    rewrite ?length_app in *; simpl length in *; try lia.
  destruct c; cbn [call_weight entry_pc pc_weight] in *; lia.
Qed.

(** Whether some goroutine can step is decidable. *)
Lemma quiescent_or_step s :
  quiescent s \/ exists i e s', step s i = Some (e, s').
Proof.
  assert (Hn : forall n, (forall i, i < n -> step s i = None) \/
                         exists i e s', step s i = Some (e, s')).
  { induction n as [|n [IH|IH]]; [left; intros; lia| |right; exact IH].
    destruct (step s n) as [[e s']|] eqn:E; [right; eauto|].
    left; intros i Hi; destruct (decide (i = n)) as [->|]; [exact E|apply IH; lia]. }
  destruct (Hn (length (procs s))) as [Hq|Hs]; [left|right; exact Hs].
  intros i; destruct (decide (i < length (procs s))); [auto|].
  apply step_out_of_range; lia.
Qed.

(** From every state some schedule leads to a state where nothing is left
    to run: the goroutines never wait for each other forever. *)
Lemma reaches_quiescence s : exists sched, quiescent (run sched s).
Proof.
  remember (measure s) as m eqn:Hm; revert s Hm.
  induction m as [m IH] using lt_wf_ind; intros s ->.
  destruct (quiescent_or_step s) as [Hq|(i & e & s' & Hstep)]; [exists []; exact Hq|].
  assert (Hd : stat s' = Running \/ stat s' <> Running)
    by (destruct (stat s'); [left; reflexivity | right; discriminate ..]).
  destruct Hd as [Hr|Hr].
  - destruct (IH (measure s') (step_measure _ _ _ _ Hstep Hr) s' eq_refl) as [sched Hq].
    exists (i :: sched); rewrite run_cons, Hstep; exact Hq.
  - exists [i]; rewrite run_cons, Hstep; unfold run; simpl.
    apply stopped_quiescent; exact Hr.
Qed.

(** ** A lone caller and its drainer *)

Lemma Merge_snoc_l {A} (x : A) xs ys zs :
  Merge xs ys zs -> Merge (xs ++ [x]) ys (zs ++ [x]).
Proof.
  induction 1; simpl; try (constructor; assumption).
  repeat constructor.
Qed.

Lemma Merge_snoc_r {A} (y : A) xs ys zs :
  Merge xs ys zs -> Merge xs (ys ++ [y]) (zs ++ [y]).
Proof.
  induction 1; simpl; try (constructor; assumption).
  repeat constructor.
Qed.

Lemma Merge_length {A} (xs ys zs : list A) :
  Merge xs ys zs -> length zs = length xs + length ys.
Proof. induction 1; simpl; lia. Qed.

Lemma firstn_enqueue {A} c (b : list A) x l :
  firstn c ((b ++ [x]) ++ l) = firstn c (b ++ x :: l).
Proof. rewrite <- app_assoc; reflexivity. Qed.

Lemma firstn_full {A} c (b l : list A) :
  c <= length b -> firstn c (b ++ l) = firstn c b.
Proof.
  intros Hc; rewrite firstn_app.
  replace (c - length b) with 0 by lia; simpl; apply app_nil_r.
Qed.

Lemma SeqInv_step c K D s i e s' :
  Forall (fun op => harmless op = true) (K ++ D) ->
  SeqInv c K D s -> step s i = Some (e, s') -> SeqInv c K D s'.
Proof.
  intros HF Hinv Hstep; destruct Hinv as
    [b p r Hp Hw Hb HK HD | r HD | r HD | b snk p r q dw xw Hp Hq HM HK HD Hdone].
  - (* buffering *)
    destruct i as [|i]; [|unfold step in Hstep; simpl in Hstep; discriminate].
    unfold step in Hstep; simpl in Hstep.
    destruct p; try discriminate Hp; simpl in Hstep.
    + destruct r as [|c0 r]; [discriminate|]; simplify_eq.
      destruct c0; simpl; apply Inv_buffering; auto.
    + simplify_eq; apply Inv_buffering; auto.
    + simplify_eq; apply Inv_buffering; auto.
    + destruct (Nat.ltb_spec (length b) c) as [Hlt|Hge]; simplify_eq; simpl;
        apply Inv_buffering; auto.
      * rewrite length_app; simpl; lia.
      * unfold to_offer; simpl; symmetry; apply firstn_enqueue.
      * unfold to_offer; simpl.
        rewrite (firstn_full c b (offered r)), (firstn_full c b (_ :: offered r)) by lia.
        reflexivity.
    + simplify_eq; apply Inv_buffering; auto.
    + simplify_eq; simpl in *.
      rewrite app_nil_r, firstn_all2 by lia.
      apply Inv_closing; reflexivity.
  - (* closing *)
    destruct i as [|i]; [|unfold step in Hstep; simpl in Hstep; discriminate].
    unfold step in Hstep; simpl in Hstep; simplify_eq.
    apply Inv_spawning; reflexivity.
  - (* spawning *)
    destruct i as [|i]; [|unfold step in Hstep; simpl in Hstep; discriminate].
    unfold step in Hstep; simpl in Hstep; simplify_eq.
    eapply (Inv_draining c K _ K [] MiLog r PqRecv [] []); auto.
    + constructor.
    + discriminate.
  - (* draining *)
    destruct i as [|[|i]]; [| |unfold step in Hstep; simpl in Hstep; discriminate].
    + (* the caller, on the direct path *)
      unfold step in Hstep; simpl in Hstep.
      destruct p; try discriminate Hp; simpl in Hstep.
      * destruct r as [|c0 r]; [discriminate|]; simplify_eq.
        destruct c0; simpl; eapply Inv_draining; eauto.
      * simplify_eq; eapply Inv_draining; eauto.
      * simplify_eq; eapply Inv_draining; eauto.
      * assert (Hh : harmless (LogOperation lvl msg) = true).
        { rewrite HD in HF. apply Forall_app in HF as [_ HF].
          apply Forall_app in HF as [_ HF]. simpl in HF.
          apply Forall_cons in HF as [HF _]. exact HF. }
        rewrite sublogWrapper_harmless in Hstep by exact Hh.
        simpl in Hstep; simplify_eq.
        eapply (Inv_draining c _ _ b _ Idle r q dw (xw ++ [LogOperation lvl msg])); auto.
        -- rewrite map_app; apply Merge_snoc_r; exact HM.
        -- rewrite <- app_assoc; reflexivity.
      * simplify_eq; eapply Inv_draining; eauto.
      * simplify_eq; eapply Inv_draining; eauto.
    + (* the drainer *)
      unfold step in Hstep; simpl in Hstep.
      destruct q; try discriminate Hq; simpl in Hstep; try discriminate Hstep.
      * destruct b as [|op b]; simplify_eq.
        -- eapply Inv_draining; eauto.
        -- eapply (Inv_draining c _ _ b snk p r (PqSub op) dw xw); auto.
           discriminate.
      * assert (Hh : harmless (LogOperation (level op) (message op)) = true).
        { rewrite HK in HF. apply Forall_app in HF as [HF _].
          apply Forall_app in HF as [_ HF]. simpl in HF.
          apply Forall_cons in HF as [HF _]. destruct op; exact HF. }
        rewrite sublogWrapper_harmless in Hstep by exact Hh.
        simpl in Hstep; simplify_eq.
        eapply (Inv_draining c _ _ b _ p r PqRecv (dw ++ [op]) xw); auto.
        -- rewrite map_app; apply Merge_snoc_l; exact HM.
        -- rewrite <- app_assoc; reflexivity.
        -- discriminate.
Qed.

Lemma quiescentb_spec s : quiescentb s = true <-> quiescent s.
Proof.
  unfold quiescentb, quiescent; rewrite forallb_forall; split.
  - intros Hq i; destruct (decide (i < length (procs s))) as [Hi|Hi].
    + specialize (Hq i); rewrite in_seq in Hq.
      destruct (step s i); [|reflexivity].
      discriminate Hq; lia.
    + apply step_out_of_range; lia.
  - intros Hq i _; rewrite Hq; reflexivity.
Qed.

Lemma reaches_quiescentb sched s :
  exists sched', quiescentb (run (sched ++ sched') s) = true.
Proof.
  destruct (reaches_quiescence (run sched s)) as [sched' Hq].
  exists sched'; rewrite run_app; apply quiescentb_spec; exact Hq.
Qed.

Lemma SeqInv_boot c prog :
  initializes prog = true ->
  SeqInv c (firstn c (offered prog)) (direct_from prog) (boot c [caller prog]).
Proof. intros Hi; apply Inv_buffering; simpl; auto; lia. Qed.

Lemma SeqInv_run c K D sched s :
  Forall (fun op => harmless op = true) (K ++ D) ->
  SeqInv c K D s -> SeqInv c K D (run sched s).
Proof.
  intros HF; apply run_invariant; intros; eapply SeqInv_step; eauto.
Qed.

Lemma SeqInv_quiescent c K D s :
  SeqInv c K D s -> quiescent s ->
  Merge (map entry_of K) (map entry_of D) (sink s) /\
  stat s = Running /\ closed (queue s) = true /\ buf (queue s) = [] /\
  length (procs s) = 2.
Proof.
  intros Hinv Hq; destruct Hinv as
    [b p r Hp Hw Hb HK HD | r HD | r HD | b snk p r q dw xw Hp Hq' HM HK HD Hdone].
  - specialize (Hq 0); unfold step in Hq; simpl in Hq.
    destruct p; try discriminate; destruct r; try discriminate.
    simpl in Hq; repeat case_match; discriminate.
  - specialize (Hq 0); discriminate.
  - specialize (Hq 0); discriminate.
  - pose proof (Hq 0) as H0; pose proof (Hq 1) as H1.
    unfold step in H0, H1; simpl in H0, H1.
    destruct q; try discriminate; [|destruct b; discriminate].
    destruct p; try discriminate; destruct r; try discriminate.
    rewrite (Hdone eq_refl) in *; simpl in *.
    rewrite !app_nil_r in *; subst; auto 10.
Qed.

(** The sink after a lone caller has run [prog] and everything it started
    has finished: an interleaving of the kept backlog and the direct-path
    records, each in program order; one close, one drainer. *)
Lemma lone_caller c prog sched :
  initializes prog = true ->
  Forall (fun op => harmless op = true) (firstn c (offered prog) ++ direct_from prog) ->
  quiescentb (run sched (boot c [caller prog])) = true ->
  Merge (map entry_of (firstn c (offered prog))) (map entry_of (direct_from prog))
        (sink (run sched (boot c [caller prog]))) /\
  stat (run sched (boot c [caller prog])) = Running /\
  count is_close (trace sched (boot c [caller prog])) = 1 /\
  count is_go (trace sched (boot c [caller prog])) = 1.
Proof.
  intros Hi HF Hq; apply quiescentb_spec in Hq.
  pose proof (SeqInv_run _ _ _ sched _ HF (SeqInv_boot c prog Hi)) as Hinv.
  destruct (SeqInv_quiescent _ _ _ _ Hinv Hq) as (HM & Hs & Hc & _ & Hl).
  pose proof (close_count sched (boot c [caller prog])) as C.
  pose proof (go_count sched (boot c [caller prog])) as G.
  unfold closed_count in C; rewrite Hc in C; rewrite Hl in G; simpl in C, G.
  repeat split; auto; lia.
Qed.

Lemma offered_logs calls :
  initializes calls = false ->
  offered (calls ++ [CMarkInitialized]) = map direct_op calls /\
  direct_from (calls ++ [CMarkInitialized]) = [init_op] /\
  initializes (calls ++ [CMarkInitialized]) = true.
Proof.
  induction calls as [|[lvl format args|] calls IH]; simpl; intros Hi;
    [auto | | discriminate].
  destruct (IH Hi) as (-> & -> & ->); auto.
Qed.

Lemma harmless_init_op : harmless init_op = true.
Proof. reflexivity. Qed.

Lemma Merge_nil_l_inv {A} (ys zs : list A) : Merge [] ys zs -> zs = ys.
Proof.
  intros HM; remember [] as xs eqn:Hx; induction HM; try discriminate;
    [reflexivity | f_equal; auto].
Qed.

(** C4 (amended). A lone caller issues N <= C [Log*] calls, none at the
    fatal or panic level, and then [MarkInitialized], on a queue of
    capacity C.  Every schedule can be continued until nothing is left to
    run, and whenever nothing is left to run the sink holds each of the N
    records exactly once and in call order, interleaved only with the
    "Logger initialized" record, and the process is still running. *)
Theorem backlog_within_capacity c (calls : list call) sched :
  initializes calls = false ->
  length calls <= c ->
  Forall (fun cl => harmless (direct_op cl) = true) calls ->
  (exists sched',
     quiescentb (run (sched ++ sched') (boot c [caller (calls ++ [CMarkInitialized])])) = true) /\
  (quiescentb (run sched (boot c [caller (calls ++ [CMarkInitialized])])) = true ->
   Merge (map entry_of (map direct_op calls)) [entry_of init_op]
         (sink (run sched (boot c [caller (calls ++ [CMarkInitialized])]))) /\
   stat (run sched (boot c [caller (calls ++ [CMarkInitialized])])) = Running).
Proof.
  intros Hi Hn Hh; split; [apply reaches_quiescentb|]; intros Hq.
  destruct (offered_logs calls Hi) as (Ho & Hd & Hm).
  destruct (lone_caller c (calls ++ [CMarkInitialized]) sched Hm) as (HM & Hs & _); auto.
  - rewrite Ho, Hd, firstn_all2 by (rewrite length_map; lia).
    apply Forall_app; split; [|repeat constructor].
    apply Forall_map; exact Hh.
  - rewrite Ho, Hd, firstn_all2 in HM by (rewrite length_map; lia).
    split; assumption.
Qed.

(** C5 (amended). A lone caller issues N > C [Log*] calls and then
    [MarkInitialized]; none of the earliest C records is at the fatal or
    panic level.  Whenever nothing is left to run the sink holds exactly
    the earliest C records, in call order, and the "Logger initialized"
    record, C + 1 entries in all; the caller saw no error: the process is
    still running. *)
Theorem backlog_overflow_keeps_earliest c (calls : list call) sched :
  initializes calls = false ->
  c < length calls ->
  Forall (fun cl => harmless (direct_op cl) = true) (firstn c calls) ->
  (exists sched',
     quiescentb (run (sched ++ sched') (boot c [caller (calls ++ [CMarkInitialized])])) = true) /\
  (quiescentb (run sched (boot c [caller (calls ++ [CMarkInitialized])])) = true ->
   Merge (map entry_of (map direct_op (firstn c calls))) [entry_of init_op]
         (sink (run sched (boot c [caller (calls ++ [CMarkInitialized])]))) /\
   length (sink (run sched (boot c [caller (calls ++ [CMarkInitialized])]))) = c + 1 /\
   stat (run sched (boot c [caller (calls ++ [CMarkInitialized])])) = Running).
Proof.
  intros Hi Hn Hh; split; [apply reaches_quiescentb|]; intros Hq.
  destruct (offered_logs calls Hi) as (Ho & Hd & Hm).
  destruct (lone_caller c (calls ++ [CMarkInitialized]) sched Hm) as (HM & Hs & _); auto.
  - rewrite Ho, Hd, firstn_map.
    apply Forall_app; split; [|repeat constructor].
    apply Forall_map; exact Hh.
  - rewrite Ho, Hd, firstn_map in HM.
    split; [exact HM|split; [|exact Hs]].
    rewrite (Merge_length _ _ _ HM), !length_map, length_take; simpl; lia.
Qed.

Lemma direct_from_marks n :
  direct_from (repeat CMarkInitialized (S n)) = repeat init_op (S n) /\
  offered (repeat (@CMarkInitialized value) (S n)) = [].
Proof.
  split; [|reflexivity]. simpl; f_equal.
  induction n as [|n IH]; simpl; [reflexivity|f_equal; exact IH].
Qed.

(** C3 (amended). A lone caller calls [MarkInitialized] n + 1 times in a
    row.  Whenever nothing is left to run: the queue was closed exactly
    once, the drainer was started exactly once, no call failed, and the
    sink holds one "Logger initialized" record per call, n + 1 in all. *)
Theorem MarkInitialized_repeated c n sched :
  (exists sched',
     quiescentb (run (sched ++ sched') (boot c [caller (repeat CMarkInitialized (S n))])) = true) /\
  (quiescentb (run sched (boot c [caller (repeat CMarkInitialized (S n))])) = true ->
   sink (run sched (boot c [caller (repeat CMarkInitialized (S n))]))
     = repeat (entry_of init_op) (S n) /\
   stat (run sched (boot c [caller (repeat CMarkInitialized (S n))])) = Running /\
   count is_close (trace sched (boot c [caller (repeat CMarkInitialized (S n))])) = 1 /\
   count is_go (trace sched (boot c [caller (repeat CMarkInitialized (S n))])) = 1).
Proof.
  split; [apply reaches_quiescentb|]; intros Hq.
  destruct (direct_from_marks n) as (Hd & Ho).
  destruct (lone_caller c (repeat CMarkInitialized (S n)) sched) as (HM & Hs & Hc & Hg);
    auto.
  - rewrite Ho, Hd, firstn_nil; simpl.
    constructor; [reflexivity|]. apply Forall_forall; intros op Hop.
    apply list_elem_of_In, repeat_spec in Hop; subst; reflexivity.
  - rewrite Ho, Hd, firstn_nil in HM; apply Merge_nil_l_inv in HM.
    rewrite HM; repeat split; auto.
    clear; generalize (S n); intros k; induction k; simpl; congruence.
Qed.

(** ** FIFO delivery, for any pool of callers *)

Lemma in_flight_insert_idle (l : list (@thread value)) i t t' :
  l !! i = Some t -> in_flight (at_pc t) = [] -> in_flight (at_pc t') = [] ->
  flat_map (fun t => in_flight (at_pc t)) (<[i := t']> l)
    = flat_map (fun t => in_flight (at_pc t)) l.
Proof.
  revert i; induction l as [|x l IH]; intros [|i] Hl Ht Ht'; simpl in *; simplify_eq.
  - rewrite Ht, Ht'; reflexivity.
  - f_equal; eauto.
Qed.

Lemma no_drainer_no_flight (l : list (@thread value)) :
  sum_list_with drainer_weight l = 0 ->
  flat_map (fun t => in_flight (at_pc t)) l = [].
Proof.
  induction l as [|x l IH]; simpl; [reflexivity|]; intros Hs.
  rewrite IH by lia.
  unfold drainer_weight in Hs; destruct (at_pc x); simpl in *; try reflexivity; lia.
Qed.

Lemma weight_le_sum (l : list (@thread value)) i t :
  l !! i = Some t -> drainer_weight t <= sum_list_with drainer_weight l.
Proof.
  revert i; induction l as [|y l IH]; intros [|i] Hl; simpl in *; simplify_eq; [lia|].
  specialize (IH i Hl); lia.
Qed.

Lemma in_flight_insert_drainer (l : list (@thread value)) i t t' :
  sum_list_with drainer_weight l <= 1 ->
  l !! i = Some t -> drainer_weight t = 1 ->
  flat_map (fun t => in_flight (at_pc t)) l = in_flight (at_pc t) /\
  flat_map (fun t => in_flight (at_pc t)) (<[i := t']> l) = in_flight (at_pc t').
Proof.
  revert i; induction l as [|x l IH]; intros [|i] Hs Hl Ht; simpl in *; simplify_eq.
  - rewrite no_drainer_no_flight by lia; rewrite !app_nil_r; auto.
  - pose proof (weight_le_sum l i t Hl).
    destruct (IH i) as [E1 E2]; auto; [lia|].
    rewrite E1, E2.
    assert (Hx : drainer_weight x = 0) by lia.
    unfold drainer_weight in Hx; destruct (at_pc x); simpl in *; try discriminate; auto.
Qed.

(** What replacing goroutine [i] changes in the drainer count and in the
    records in flight. *)
Lemma move_facts (l : list (@thread value)) i t p' r' :
  sum_list_with drainer_weight l <= 1 ->
  l !! i = Some t ->
  sum_list_with drainer_weight (<[i := Thread p' r']> l) + drainer_pc (at_pc t)
    = sum_list_with drainer_weight l + drainer_pc p' /\
  (in_flight (at_pc t) = [] -> in_flight p' = [] ->
   flat_map (fun t => in_flight (at_pc t)) (<[i := Thread p' r']> l)
     = flat_map (fun t => in_flight (at_pc t)) l) /\
  (drainer_pc (at_pc t) = 1 ->
   flat_map (fun t => in_flight (at_pc t)) l = in_flight (at_pc t) /\
   flat_map (fun t => in_flight (at_pc t)) (<[i := Thread p' r']> l) = in_flight p').
Proof.
  intros Hs Hl; split; [|split].
  - apply (sum_list_with_insert drainer_weight _ _ _ (Thread p' r') Hl).
  - intros; apply (in_flight_insert_idle _ _ t); auto.
  - intros Ht; apply (in_flight_insert_drainer l i t (Thread p' r')); auto.
Qed.

Lemma enqueued_snoc tr i e :
  enqueued (tr ++ [(i, e)])
    = enqueued tr ++ match e with EvEnqueue op => [op] | _ => [] end.
Proof. unfold enqueued; rewrite flat_map_app; simpl; rewrite app_nil_r; reflexivity. Qed.

Lemma drained_snoc tr i e :
  drained (tr ++ [(i, e)])
    = drained tr ++ match e with EvDrained op => [op] | _ => [] end.
Proof. unfold drained; rewrite flat_map_app; simpl; rewrite app_nil_r; reflexivity. Qed.

Lemma Fifo_step tr s i e s' :
  Fifo tr s -> step s i = Some (e, s') -> Fifo (tr ++ [(i, e)]) s'.
Proof.
  unfold Fifo, in_flight_all, closed_count.
  intros [Hw Hq] Hstep; rewrite enqueued_snoc, drained_snoc, Hq.
  assert (Hone : sum_list_with drainer_weight (procs s) <= 1)
    by (destruct (closed (queue s)); lia).
  step_cases Hstep; simpl;
    rewrite ?sublogWrapper_queue, ?sublogWrapper_procs; simpl;
    rewrite ?sum_list_with_app, ?flat_map_app; simpl;
    repeat match goal with H : closed _ = _ |- _ => rewrite H in * end;
    repeat match goal with H : buf _ = _ |- _ => rewrite H in * end;
    rewrite ?app_nil_r;
    try match goal with
    | Hl : procs s !! i = Some ?t |- context [<[i := Thread ?p' ?r']> (procs s)] =>
        destruct (move_facts _ _ _ p' r' Hone Hl) as (Hsum & Hidle & Hdr)
    end;
    repeat match goal with
           | H : at_pc _ = _ |- _ => rewrite H in *
           end;
    cbn [drainer_pc in_flight entry_pc] in *.
  all: try (destruct c; cbn [drainer_pc in_flight entry_pc] in * ).
  all: try (rewrite Hidle by reflexivity).
  all: try (destruct (Hdr eq_refl) as [E1 E2]; rewrite ?E1, ?E2).
  all: cbn [drainer_weight drainer_pc at_pc in_flight].
  all: split; [lia | simpl; rewrite <- ?app_assoc; simpl; try reflexivity].
Qed.

Lemma Fifo_exec sched tr s :
  Fifo tr s -> Fifo (tr ++ trace sched s) (run sched s).
Proof.
  revert tr s; induction sched as [|i sched IH]; intros tr s HF.
  - unfold trace, run; simpl; rewrite app_nil_r; exact HF.
  - rewrite run_cons, trace_cons; destruct (step s i) as [[e s']|] eqn:E.
    + specialize (IH _ _ (Fifo_step _ _ _ _ _ HF E)).
      rewrite <- app_assoc in IH; exact IH.
    + apply IH; exact HF.
Qed.

Lemma Fifo_boot c (pool : list (list (@call value))) : Fifo [] (boot c (map caller pool)).
Proof.
  unfold Fifo, in_flight_all, closed_count; simpl.
  induction pool as [|prog pool [IH1 IH2]]; simpl; [split; [lia|reflexivity]|].
  split; [exact IH1|exact IH2].
Qed.

Lemma step_sink s i e s' :
  step s i = Some (e, s') -> sink s' = sink s ++ written [(i, e)].
Proof.
  intros Hstep; step_cases Hstep; simpl;
    rewrite ?sublogWrapper_sink; simpl; rewrite ?app_nil_r; reflexivity.
Qed.

Lemma sink_written sched s :
  sink (run sched s) = sink s ++ written (trace sched s).
Proof.
  revert s; induction sched as [|i sched IH]; intros s.
  - unfold run, trace; simpl; rewrite app_nil_r; reflexivity.
  - rewrite run_cons, trace_cons; destruct (step s i) as [[e s']|] eqn:E; [|apply IH].
    rewrite IH, (step_sink _ _ _ _ E).
    unfold written; simpl; rewrite app_nil_r, <- app_assoc; reflexivity.
Qed.

Lemma written_merge (tr : list (nat * @event value)) :
  Merge (map entry_of (drained tr)) (map entry_of (directs tr)) (written tr).
Proof.
  induction tr as [|[i e] tr IH]; [constructor|].
  unfold drained, directs, written in *; simpl.
  destruct e; simpl; try exact IH; constructor; exact IH.
Qed.

(** C1 (amended). For any pool of caller goroutines, any queue capacity
    and any schedule: the records the drainer has written are, in order,
    a prefix of the records that were enqueued, and the sink is an
    interleaving of these drainer writes with the direct-path writes that
    keeps the order of each.  (Nothing orders a drainer write against a
    direct-path write.) *)
Theorem backlog_fifo c (pool : list (list call)) sched :
  drained (trace sched (boot c (map caller pool)))
    `prefix_of` enqueued (trace sched (boot c (map caller pool))) /\
  Merge (map entry_of (drained (trace sched (boot c (map caller pool)))))
        (map entry_of (directs (trace sched (boot c (map caller pool)))))
        (sink (run sched (boot c (map caller pool)))).
Proof.
  split.
  - destruct (Fifo_exec sched [] _ (Fifo_boot c pool)) as [_ Hq].
    simpl in Hq; rewrite Hq; eexists; reflexivity.
  - rewrite sink_written; simpl; apply written_merge.
Qed.

(** ** One call, run without interruption *)

Lemma set_thread_twice s i t1 t2 :
  set_thread i t2 (set_thread i t1 s) = set_thread i t2 s.
Proof. unfold set_thread; simpl; rewrite list_insert_insert_eq; reflexivity. Qed.


Lemma exec_step i sched s e s' :
  step s i = Some (e, s') ->
  exec (i :: sched) s = ((i, e) :: fst (exec sched s'), snd (exec sched s')).
Proof. intros E; rewrite exec_cons, E; reflexivity. Qed.

(** The first three steps of a [Log*] call: enter, format, read the flag. *)
Lemma log_call_prefix s i lvl format args r :
  stat s = Running ->
  procs s !! i = Some (Thread Idle (CLog lvl format args :: r)) ->
  exec [i; i; i] s =
    ([(i, EvCall (CLog lvl format args)); (i, EvFormat (Sprintf format args));
      (i, EvLoad (queueClosed s))],
     set_thread i (Thread (if queueClosed s then LwSub lvl (Sprintf format args)
                           else LwSelect lvl (Sprintf format args)) r) s).
Proof.
  intros Hs Hl; pose proof (lookup_lt_Some _ _ _ Hl) as Hi.
  set (m := Sprintf format args).
  set (s1 := set_thread i (Thread (LwFormat lvl format args) r) s).
  set (s2 := set_thread i (Thread (LwLoad lvl m) r) s).
  set (s3 := set_thread i (Thread (if queueClosed s then LwSub lvl m else LwSelect lvl m) r) s).
  assert (E1 : step s i = Some (EvCall (CLog lvl format args), s1))
    by (unfold step; rewrite Hs, Hl; reflexivity).
  assert (E2 : step s1 i = Some (EvFormat m, s2)).
  { unfold step; simpl; rewrite Hs, list_lookup_insert_eq by exact Hi; simpl.
    unfold s2, set_thread; simpl; rewrite list_insert_insert_eq; reflexivity. }
  assert (E3 : step s2 i = Some (EvLoad (queueClosed s), s3)).
  { unfold step; simpl; rewrite Hs, list_lookup_insert_eq by exact Hi; simpl.
    unfold s3, set_thread; simpl.
    destruct (queueClosed s); rewrite list_insert_insert_eq; reflexivity. }
  rewrite (exec_step _ _ _ _ _ E1), (exec_step _ _ _ _ _ E2), (exec_step _ _ _ _ _ E3).
  reflexivity.
Qed.

Lemma exec_snoc sched i s :
  exec (sched ++ [i]) s =
    match step (snd (exec sched s)) i with
    | Some (e, s') => (fst (exec sched s) ++ [(i, e)], s')
    | None => exec sched s
    end.
Proof.
  rewrite exec_app; simpl.
  destruct (step (snd (exec sched s)) i) as [[e s']|]; simpl; [reflexivity|].
  rewrite app_nil_r; destruct (exec sched s); reflexivity.
Qed.

(** The whole of a [Log*] call, by what the flag and the queue are. *)
Lemma log_call_solo s i lvl format args r :
  stat s = Running ->
  procs s !! i = Some (Thread Idle (CLog lvl format args :: r)) ->
  exec [i; i; i; i] s =
    let m := Sprintf format args in
    let op := LogOperation lvl m in
    let pre := [(i, EvCall (CLog lvl format args)); (i, EvFormat m);
                (i, EvLoad (queueClosed s))] in
    if queueClosed s
    then (pre ++ [(i, EvDirect op)], sublogWrapper lvl m (set_thread i (Thread Idle r) s))
    else if closed (queue s)
    then (pre ++ [(i, EvPanic SendOnClosedChannel)],
          set_stat (Panicked SendOnClosedChannel)
                   (set_thread i (Thread (LwSelect lvl m) r) s))
    else if has_room s
    then (pre ++ [(i, EvEnqueue op)],
          set_thread i (Thread Idle r) (set_buf (buf (queue s) ++ [op]) s))
    else (pre ++ [(i, EvDrop op)], set_thread i (Thread Idle r) s).
Proof.
  intros Hs Hl.
  change [i; i; i; i] with ([i; i; i] ++ [i]).
  rewrite exec_snoc, (log_call_prefix _ _ _ _ _ _ Hs Hl); simpl.
  unfold step; simpl; rewrite Hs, (list_lookup_insert_eq _ _ _ (lookup_lt_Some _ _ _ Hl)).
  unfold has_room.
  destruct (queueClosed s); simpl.
  - rewrite set_thread_twice; reflexivity.
  - destruct (closed (queue s)); simpl; [reflexivity|].
    destruct (Nat.ltb _ _); simpl.
    + unfold set_thread, set_buf; simpl; rewrite list_insert_insert_eq; reflexivity.
    + rewrite set_thread_twice; reflexivity.
Qed.

(** Unless the queue was closed behind a caller that still saw the flag
    down, a [Log*] call has exactly one outcome and returns. *)
Lemma log_call_one_outcome s i lvl format args r :
  stat s = Running ->
  procs s !! i = Some (Thread Idle (CLog lvl format args :: r)) ->
  queueClosed s = true \/ closed (queue s) = false ->
  count is_outcome (trace [i; i; i; i] s) = 1 /\
  procs (run [i; i; i; i] s) !! i = Some (Thread Idle r).
Proof.
  intros Hs Hl Hok; pose proof (lookup_lt_Some _ _ _ Hl) as Hi.
  pose proof (log_call_solo _ _ _ _ _ _ Hs Hl) as Hsolo; cbv zeta in Hsolo.
  unfold trace, run; rewrite Hsolo.
  destruct (queueClosed s).
  - simpl; rewrite sublogWrapper_procs; simpl.
    rewrite list_lookup_insert_eq by exact Hi; split; reflexivity.
  - destruct Hok as [Hok|Hok]; [discriminate|]; rewrite Hok.
    destruct (has_room s); simpl; rewrite list_lookup_insert_eq by exact Hi;
      split; reflexivity.
Qed.

Lemma sublogWrapper_stat lvl msg s :
  stat (sublogWrapper lvl msg s) =
    match dispatch lvl with
    | FatalLevel => Exited 1
    | PanicLevel => Panicked (ZerologPanic msg)
    | _ => stat s
    end.
Proof. unfold sublogWrapper; destruct (dispatch lvl); reflexivity. Qed.

(** What the drainer does with the record it holds. *)
Lemma drain_write s j op q :
  stat s = Running ->
  procs s !! j = Some (Thread (PqSub op) q) ->
  exec [j] s =
    ([(j, EvDrained op)],
     sublogWrapper (level op) (message op) (set_thread j (Thread PqRecv q) s)).
Proof.
  intros Hs Hl.
  assert (E : step s j = Some (EvDrained op,
                sublogWrapper (level op) (message op) (set_thread j (Thread PqRecv q) s)))
    by (unfold step; rewrite Hs, Hl; reflexivity).
  rewrite (exec_step _ _ _ _ _ E); reflexivity.
Qed.


(** C9 (amended). The route of a [Log*] call does not depend on its
    level.  While the logger is buffering, a call at any level, fatal and
    panic included, only enqueues or drops its record and returns: the
    sink is untouched and the process keeps running.  Once the logger is
    direct, the call writes its record and then, at the fatal level, exits
    the process, and at the panic level, panics.  A buffered fatal or panic
    record ends the process only when the drainer writes it. *)
Theorem fatal_panic_routing s i lvl format args r :
  stat s = Running ->
  procs s !! i = Some (Thread Idle (CLog lvl format args :: r)) ->
  (queueClosed s = true ->
   sink (run [i; i; i; i] s) = sink s ++ [(dispatch lvl, Sprintf format args)] /\
   stat (run [i; i; i; i] s) =
     match dispatch lvl with
     | FatalLevel => Exited 1
     | PanicLevel => Panicked (ZerologPanic (Sprintf format args))
     | _ => Running
     end) /\
  (queueClosed s = false -> closed (queue s) = false ->
   stat (run [i; i; i; i] s) = Running /\
   sink (run [i; i; i; i] s) = sink s /\
   procs (run [i; i; i; i] s) !! i = Some (Thread Idle r) /\
   buf (queue (run [i; i; i; i] s)) =
     if has_room s
     then buf (queue s) ++ [LogOperation lvl (Sprintf format args)]
     else buf (queue s)) /\
  (forall s' j q,
     stat s' = Running ->
     procs s' !! j = Some (Thread (PqSub (LogOperation lvl (Sprintf format args))) q) ->
     sink (run [j] s') = sink s' ++ [(dispatch lvl, Sprintf format args)] /\
     stat (run [j] s') =
       match dispatch lvl with
       | FatalLevel => Exited 1
       | PanicLevel => Panicked (ZerologPanic (Sprintf format args))
       | _ => Running
       end).
Proof.
  intros Hs Hl; pose proof (lookup_lt_Some _ _ _ Hl) as Hi.
  pose proof (log_call_solo _ _ _ _ _ _ Hs Hl) as Hsolo; cbv zeta in Hsolo.
  split; [|split].
  - intros Hq; unfold run; rewrite Hsolo, Hq; simpl.
    rewrite sublogWrapper_sink, sublogWrapper_stat; simpl; rewrite Hs; auto.
  - intros Hq Hc; unfold run; rewrite Hsolo, Hq, Hc.
    destruct (has_room s); simpl; rewrite list_lookup_insert_eq by exact Hi; auto.
  - intros s' j q Hs' Hl'; unfold run; rewrite (drain_write _ _ _ _ Hs' Hl'); simpl.
    rewrite sublogWrapper_sink, sublogWrapper_stat; simpl; rewrite Hs'; auto.
Qed.

(** C10. A level string that is none of the seven recognized ones is
    dispatched to the Info event: [sublogWrapper] appends the message at
    Info level and changes nothing else, so the process neither exits nor
    panics. *)
Theorem unrecognized_level_is_info lvl msg s :
  recognized lvl = false ->
  dispatch lvl = InfoLevel /\
  sublogWrapper lvl msg s =
    State (queue s) (queueClosed s) (sink s ++ [(InfoLevel, msg)]) (procs s) (stat s).
Proof.
  intros Hr; pose proof (dispatch_unrecognized lvl Hr) as Hd.
  split; [exact Hd|]. unfold sublogWrapper; rewrite Hd; reflexivity.
Qed.

End Facts.

(** * Closed examples *)

(** C1, counterexample.  One caller logs "early", calls
    [MarkInitialized] and, after it has returned, logs "late".  When the
    caller runs on before the drainer is scheduled, "early", enqueued
    before the transition, reaches the sink after "late". *)
Lemma direct_record_overtakes_backlog :
  quiescentb (run caller_first (init early_late)) = true /\
  enqueued (trace caller_first (init early_late)) = [LogOperation "info" "early"] /\
  directs (trace caller_first (init early_late))
    = [LogOperation "info" "Logger initialized"; LogOperation "info" "late"] /\
  sink (run caller_first (init early_late))
    = [(InfoLevel, "Logger initialized"); (InfoLevel, "late"); (InfoLevel, "early")].
Proof. vm_compute; repeat split; reflexivity. Qed.

(** C2, the failing run.  A caller reads [queueClosed] as false,
    [MarkInitialized] then stores the flag and closes the queue, and the
    caller's [select] sends on the closed channel: the process panics. *)
Theorem send_on_closed_channel_race :
  trace racing_schedule (init racing_pool)
    = [(0, EvCall (LogInfo "a" [])); (0, EvFormat "a"); (0, EvLoad false);
       (1, EvCall CMarkInitialized); (1, EvLoad false); (1, EvStore); (1, EvClose);
       (0, EvPanic SendOnClosedChannel)] /\
  stat (run racing_schedule (init racing_pool)) = Panicked SendOnClosedChannel.
Proof. vm_compute; split; reflexivity. Qed.

(** C3, counterexample.  Two calls of [MarkInitialized] in a row: the
    queue is closed once and the drainer started once, but the sink holds
    two "Logger initialized" records. *)
Lemma second_MarkInitialized_logs_again :
  quiescentb (run caller_first (init twice_initialized)) = true /\
  count is_close (trace caller_first (init twice_initialized)) = 1 /\
  count is_go (trace caller_first (init twice_initialized)) = 1 /\
  sink (run caller_first (init twice_initialized))
    = [(InfoLevel, "Logger initialized"); (InfoLevel, "Logger initialized")].
Proof. vm_compute; repeat split; reflexivity. Qed.

(** C4, counterexample.  [LogFatal "x"] and [LogInfo "y"] before
    [MarkInitialized]: the drainer writes "x" at the fatal level, zerolog
    exits the process, and "y" never reaches the sink.  And with harmless
    records only: when [MarkInitialized] has returned and the drainer has
    not run yet, the sink holds none of them. *)
Lemma backlog_record_missing_from_sink :
  (quiescentb (run caller_first (init fatal_then_info)) = true /\
   stat (run caller_first (init fatal_then_info)) = Exited 1 /\
   sink (run caller_first (init fatal_then_info))
     = [(InfoLevel, "Logger initialized"); (FatalLevel, "x")] /\
   buf (queue (run caller_first (init fatal_then_info))) = [LogOperation "info" "y"]) /\
  (procs (run (repeat 0 40) (init [caller (two_calls ++ [CMarkInitialized])]))
     = [Thread Idle []; Thread PqRecv []] /\
   sink (run (repeat 0 40) (init [caller (two_calls ++ [CMarkInitialized])]))
     = [(InfoLevel, "Logger initialized")]).
Proof. vm_compute; repeat split; reflexivity. Qed.

(** C5, counterexample.  101 calls before [MarkInitialized] on the
    queue of capacity 100, the first at the fatal level: the last record
    is dropped, and of the 100 kept only the first reaches the sink,
    because writing it exits the process. *)
Lemma fatal_in_overflowing_backlog :
  quiescentb (run overflow_schedule (init fatal_overflow)) = true /\
  stat (run overflow_schedule (init fatal_overflow)) = Exited 1 /\
  sink (run overflow_schedule (init fatal_overflow))
    = [(InfoLevel, "Logger initialized"); (FatalLevel, "x")] /\
  length (buf (queue (run overflow_schedule (init fatal_overflow)))) = 99.
Proof. vm_compute; repeat split; reflexivity. Qed.

(** C8, the failing run.  In the race of C2 the [LogWarn] call neither
    enqueues, nor drops, nor writes its record: its events end in a panic
    and the trace holds no outcome at all. *)
Theorem racing_call_has_no_outcome :
  events_of 0 (trace racing_schedule (init racing_warn_pool))
    = [EvCall (LogWarn "w" []); EvFormat "w"; EvLoad false;
       EvPanic SendOnClosedChannel] /\
  count is_outcome (trace racing_schedule (init racing_warn_pool)) = 0 /\
  stat (run racing_schedule (init racing_warn_pool)) = Panicked SendOnClosedChannel.
Proof. vm_compute; repeat split; reflexivity. Qed.

(** C9, counterexample.  [LogFatal] before initialisation: the call
    returns with the record in the queue, nothing handed to the sink and
    the process running; without a later [MarkInitialized] nothing is left
    to run.  And [LogFatal] on a full backlog: the record is dropped, and
    after [MarkInitialized] and the whole drain the process is still
    running and the sink holds no fatal record. *)
Lemma buffered_fatal_returns :
  (quiescentb (run [0; 0; 0; 0] (init fatal_before_init)) = true /\
   stat (run [0; 0; 0; 0] (init fatal_before_init)) = Running /\
   sink (run [0; 0; 0; 0] (init fatal_before_init)) = [] /\
   procs (run [0; 0; 0; 0] (init fatal_before_init)) = [Thread Idle []] /\
   buf (queue (run [0; 0; 0; 0] (init fatal_before_init)))
     = [LogOperation "fatal" "boom"]) /\
  (quiescentb (run full_schedule (init fatal_on_full)) = true /\
   stat (run full_schedule (init fatal_on_full)) = Running /\
   sink (run full_schedule (init fatal_on_full))
     = (InfoLevel, "Logger initialized") :: repeat (InfoLevel, "y") 100).
Proof. vm_compute; repeat split; reflexivity. Qed.

(** ** The theorems at concrete inputs *)

Lemma MarkInitialized_repeated_witness :
  quiescentb (run caller_first (boot 100 [caller (repeat CMarkInitialized 2)])) = true /\
  sink (run caller_first (boot 100 [caller (repeat CMarkInitialized 2)]))
    = repeat (entry_of init_op) 2 /\
  stat (run caller_first (boot 100 [caller (repeat CMarkInitialized 2)])) = Running /\
  count is_close (trace caller_first (boot 100 [caller (repeat CMarkInitialized 2)])) = 1 /\
  count is_go (trace caller_first (boot 100 [caller (repeat CMarkInitialized 2)])) = 1.
Proof.
  split; [vm_compute; reflexivity|].
  destruct (MarkInitialized_repeated (value := unit) 100 1 caller_first) as [_ H].
  apply H; vm_compute; reflexivity.
Defined.

Lemma backlog_within_capacity_witness :
  initializes two_calls = false /\
  length two_calls <= 100 /\
  Forall (fun cl => harmless (direct_op cl) = true) two_calls /\
  quiescentb (run (drainer_first 2) (boot 100 [caller (two_calls ++ [CMarkInitialized])])) = true /\
  Merge (map entry_of (map direct_op two_calls)) [entry_of init_op]
        (sink (run (drainer_first 2) (boot 100 [caller (two_calls ++ [CMarkInitialized])]))) /\
  stat (run (drainer_first 2) (boot 100 [caller (two_calls ++ [CMarkInitialized])])) = Running.
Proof.
  assert (H1 : initializes two_calls = false) by reflexivity.
  assert (H2 : length two_calls <= 100) by (simpl; lia).
  assert (H3 : Forall (fun cl => harmless (direct_op cl) = true) two_calls)
    by (repeat constructor).
  assert (H4 : quiescentb (run (drainer_first 2)
                 (boot 100 [caller (two_calls ++ [CMarkInitialized])])) = true)
    by (vm_compute; reflexivity).
  destruct (backlog_within_capacity 100 two_calls (drainer_first 2) H1 H2 H3) as [_ H].
  repeat split; try assumption; apply (H H4).
Defined.

Lemma backlog_overflow_keeps_earliest_witness :
  initializes three_calls = false /\
  2 < length three_calls /\
  Forall (fun cl => harmless (direct_op cl) = true) (firstn 2 three_calls) /\
  quiescentb (run (drainer_first 3) (boot 2 [caller (three_calls ++ [CMarkInitialized])])) = true /\
  Merge (map entry_of (map direct_op (firstn 2 three_calls))) [entry_of init_op]
        (sink (run (drainer_first 3) (boot 2 [caller (three_calls ++ [CMarkInitialized])]))) /\
  length (sink (run (drainer_first 3) (boot 2 [caller (three_calls ++ [CMarkInitialized])]))) = 2 + 1 /\
  stat (run (drainer_first 3) (boot 2 [caller (three_calls ++ [CMarkInitialized])])) = Running.
Proof.
  assert (H1 : initializes three_calls = false) by reflexivity.
  assert (H2 : 2 < length three_calls) by (simpl; lia).
  assert (H3 : Forall (fun cl => harmless (direct_op cl) = true) (firstn 2 three_calls))
    by (repeat constructor).
  assert (H4 : quiescentb (run (drainer_first 3)
                 (boot 2 [caller (three_calls ++ [CMarkInitialized])])) = true)
    by (vm_compute; reflexivity).
  destruct (backlog_overflow_keeps_earliest 2 three_calls (drainer_first 3) H1 H2 H3)
    as [_ H].
  repeat split; try assumption; apply (H H4).
Defined.

(** The scenario of capacity 2: "a", "b", "c" before initialisation give
    the sink "a", "b", "Logger initialized" when the drainer runs first. *)
Example capacity_two_scenario :
  sink (run (drainer_first 3) (boot 2 [caller (three_calls ++ [CMarkInitialized])]))
    = [(InfoLevel, "a"); (InfoLevel, "b"); (InfoLevel, "Logger initialized")].
Proof. vm_compute; reflexivity. Qed.



Lemma fatal_panic_routing_witness :
  stat (init fatal_before_init) = Running /\
  procs (init fatal_before_init) !! 0 = Some (Thread Idle [LogFatal "boom" []]) /\
  queueClosed (init fatal_before_init) = false /\
  closed (queue (init fatal_before_init)) = false /\
  stat (run [0; 0; 0; 0] (init fatal_before_init)) = Running /\
  sink (run [0; 0; 0; 0] (init fatal_before_init)) = sink (init fatal_before_init).
Proof.
  assert (H1 : stat (init fatal_before_init) = Running) by reflexivity.
  assert (H2 : procs (init fatal_before_init) !! 0 = Some (Thread Idle [LogFatal "boom" []]))
    by reflexivity.
  assert (H3 : queueClosed (init fatal_before_init) = false) by reflexivity.
  assert (H4 : closed (queue (init fatal_before_init)) = false) by reflexivity.
  destruct (fatal_panic_routing (init fatal_before_init) 0 "fatal" "boom" [] [] H1 H2)
    as (_ & H & _).
  destruct (H H3 H4) as (H5 & H6 & _).
  repeat split; assumption.
Defined.

Lemma unrecognized_level_is_info_witness :
  recognized "verbose" = false /\
  dispatch "verbose" = InfoLevel /\
  sublogWrapper "verbose" "m" (init racing_pool) =
    State (queue (init racing_pool)) (queueClosed (init racing_pool))
          (sink (init racing_pool) ++ [(InfoLevel, "m")])
          (procs (init racing_pool)) (stat (init racing_pool)).
Proof.
  assert (H : recognized "verbose" = false) by reflexivity.
  destruct (unrecognized_level_is_info "verbose" "m" (init racing_pool) H) as [H1 H2].
  repeat split; assumption.
Defined.
